(** * libc/src/__support/math_extras.h: add with carry, subtract with borrow

    A shallow embedding of the two multi-limb primitives of LLVM libc's
    [math_extras.h].  A value of an unsigned type of [w] bits is a [Z] in
    [0, 2^w); every assignment to a variable of that type reduces modulo
    [2^w], which is what C++ does when it converts the (possibly promoted)
    result of an arithmetic expression back to the unsigned type. *)

From Stdlib Require Import ZArith Bool Lia.

Local Open Scope Z_scope.

Module MathExtras.

(** ** Unsigned values of a given width *)

Definition modulus (w : Z) : Z := 2 ^ w.

(** Conversion of an integer to the unsigned type of [w] bits. *)
Definition wrap (w x : Z) : Z := x mod modulus w.

(** The values an object of the unsigned type of [w] bits can hold. *)
Definition in_range (w x : Z) : Prop := 0 <= x < modulus w.

(** The largest value of the type, [cpp::numeric_limits<T>::max()]. *)
Definition max_value (w : Z) : Z := modulus w - 1.

(** A carry or a borrow that is logically a bit. *)
Definition is_bit (c : Z) : Prop := c = 0 \/ c = 1.

(** ** Result pairs *)

(** [template <typename T> struct SumCarry { T sum; T carry; };] *)
Record SumCarry : Set := { sum : Z; carry : Z }.

(** [template <typename T> struct DiffBorrow { T diff; T borrow; };] *)
Record DiffBorrow : Set := { diff : Z; borrow : Z }.

(** ** The versions that are always valid for constexpr *)

(** [[
      T tmp = a + carry_in;
      T sum = b + tmp;
      T carry_out = (sum < b) + (tmp < a);
      return {sum, carry_out};
    ]]
    The two comparisons are [bool]s; their sum is an [int] (0, 1 or 2) that
    is converted to [T]. *)
Definition add_with_carry_const (w a b carry_in : Z) : SumCarry :=
  let tmp := wrap w (a + carry_in) in
  let sum := wrap w (b + tmp) in
  let carry_out := wrap w (Z.b2z (sum <? b) + Z.b2z (tmp <? a)) in
  {| sum := sum; carry := carry_out |}.

(** [[
      T tmp = a - b;
      T diff = tmp - borrow_in;
      T borrow_out = (diff > tmp) + (tmp > a);
      return {diff, borrow_out};
    ]] *)
Definition sub_with_borrow_const (w a b borrow_in : Z) : DiffBorrow :=
  let tmp := wrap w (a - b) in
  let diff := wrap w (tmp - borrow_in) in
  let borrow_out := wrap w (Z.b2z (diff >? tmp) + Z.b2z (tmp >? a)) in
  {| diff := diff; borrow := borrow_out |}.

(** ** The compiler's multiprecision builtins *)

(** One unsigned addition that reports whether it overflowed. *)
Definition uadd_with_overflow (w x y : Z) : Z * bool :=
  (wrap w (x + y), modulus w <=? x + y).

(** One unsigned subtraction that reports whether it underflowed. *)
Definition usub_with_overflow (w x y : Z) : Z * bool :=
  (wrap w (x - y), x - y <? 0).

(** Modelled from the spec: the primitive [__builtin_addc{b,s,,l,ll}] that
    the accelerated strategy delegates to is the compiler's and is missing
    from the header.  It is the native add-with-carry of section 4.1: it
    receives [x], [y] and [carryin], returns the sum and hands back a carry
    flag normalised to 0 or 1.  As in the compiler's documentation that the
    header links to, the sum is formed in two overflow-checked additions and
    the flag says whether either of them overflowed. *)
Definition builtin_addc (w x y carryin : Z) : Z * Z :=
  let '(sum1, carry1) := uadd_with_overflow w x y in
  let '(sum2, carry2) := uadd_with_overflow w sum1 carryin in
  (sum2, Z.b2z (carry1 || carry2)).

(** Modelled from the spec: the primitive [__builtin_subc{b,s,,l,ll}] of
    section 4.2, missing from the header like its additive twin: two
    underflow-checked subtractions, and a borrow flag normalised to 0 or 1
    that says whether either of them underflowed. *)
Definition builtin_subc (w x y carryin : Z) : Z * Z :=
  let '(diff1, borrow1) := usub_with_overflow w x y in
  let '(diff2, borrow2) := usub_with_overflow w diff1 carryin in
  (diff2, Z.b2z (borrow1 || borrow2)).

(** ** Width dispatch *)

(** The unsigned integral types the templates are instantiated at: the five
    standard ones, each of which has an explicit specialisation, and the
    extended 128-bit type, which has none. *)
Inductive utype : Set :=
  | UChar | UShort | UInt | ULong | ULongLong | UInt128.

(** What the header takes from the target: the width of each type and the
    two [LIBC_HAS_BUILTIN] answers of [macros/config.h]. *)
Record target : Type := {
  bits : utype -> Z;
  has_builtin_addc : bool;
  has_builtin_subc : bool
}.

Section Dispatch.

Variable tg : target.

Definition builtin_addcb := builtin_addc (bits tg UChar).
Definition builtin_addcs := builtin_addc (bits tg UShort).
Definition builtin_addci := builtin_addc (bits tg UInt).
Definition builtin_addcl := builtin_addc (bits tg ULong).
Definition builtin_addcll := builtin_addc (bits tg ULongLong).

Definition builtin_subcb := builtin_subc (bits tg UChar).
Definition builtin_subcs := builtin_subc (bits tg UShort).
Definition builtin_subci := builtin_subc (bits tg UInt).
Definition builtin_subcl := builtin_subc (bits tg ULong).
Definition builtin_subcll := builtin_subc (bits tg ULongLong).

(** [[
      SumCarry<T> result{0, 0};
      result.sum = __builtin_addcX(a, b, carry_in, &result.carry);
      return result;
    ]] *)
Definition add_with_carry_builtin
    (addc : Z -> Z -> Z -> Z * Z) (a b carry_in : Z) : SumCarry :=
  let result := {| sum := 0; carry := 0 |} in
  let '(s, carry_out) := addc a b carry_in in
  {| sum := s; carry := carry_out |}.

Definition sub_with_borrow_builtin
    (subc : Z -> Z -> Z -> Z * Z) (a b borrow_in : Z) : DiffBorrow :=
  let result := {| diff := 0; borrow := 0 |} in
  let '(d, borrow_out) := subc a b borrow_in in
  {| diff := d; borrow := borrow_out |}.

(** The specialisations inside [#if LIBC_HAS_BUILTIN(__builtin_addc)]. *)
Definition add_with_carry_spec (t : utype) : option (Z -> Z -> Z -> SumCarry) :=
  match t with
  | UChar => Some (add_with_carry_builtin builtin_addcb)
  | UShort => Some (add_with_carry_builtin builtin_addcs)
  | UInt => Some (add_with_carry_builtin builtin_addci)
  | ULong => Some (add_with_carry_builtin builtin_addcl)
  | ULongLong => Some (add_with_carry_builtin builtin_addcll)
  | UInt128 => None
  end.

(** The specialisations inside [#if LIBC_HAS_BUILTIN(__builtin_subc)]. *)
Definition sub_with_borrow_spec (t : utype) : option (Z -> Z -> Z -> DiffBorrow) :=
  match t with
  | UChar => Some (sub_with_borrow_builtin builtin_subcb)
  | UShort => Some (sub_with_borrow_builtin builtin_subcs)
  | UInt => Some (sub_with_borrow_builtin builtin_subci)
  | ULong => Some (sub_with_borrow_builtin builtin_subcl)
  | ULongLong => Some (sub_with_borrow_builtin builtin_subcll)
  | UInt128 => None
  end.

(** [add_with_carry<T>]: the specialisation for [T] when the builtins are
    there, the primary template, which calls [add_with_carry_const<T>],
    otherwise. *)
Definition add_with_carry (t : utype) (a b carry_in : Z) : SumCarry :=
  match (if has_builtin_addc tg then add_with_carry_spec t else None) with
  | Some f => f a b carry_in
  | None => add_with_carry_const (bits tg t) a b carry_in
  end.

(** [sub_with_borrow<T>], selected in the same way. *)
Definition sub_with_borrow (t : utype) (a b borrow_in : Z) : DiffBorrow :=
  match (if has_builtin_subc tg then sub_with_borrow_spec t else None) with
  | Some f => f a b borrow_in
  | None => sub_with_borrow_const (bits tg t) a b borrow_in
  end.

End Dispatch.

(** ** Targets used in the examples *)

(** Widths of an LP64 target. *)
Definition lp64_bits (t : utype) : Z :=
  match t with
  | UChar => 8 | UShort => 16 | UInt => 32
  | ULong => 64 | ULongLong => 64 | UInt128 => 128
  end.

Definition lp64 (builtins : bool) : target :=
  {| bits := lp64_bits;
     has_builtin_addc := builtins;
     has_builtin_subc := builtins |}.

(** ** Proof steps shared below *)

(** Decides every comparison left in the goal. *)
Ltac decide_comparisons :=
  rewrite ?Z.gtb_ltb;
  repeat match goal with
         | |- context [?x <? ?y] => destruct (Z.ltb_spec x y)
         | |- context [?x <=? ?y] => destruct (Z.leb_spec x y)
         end;
  cbn [Z.b2z orb].

(** Closes the side conditions of a statement at a concrete input. *)
Ltac concrete :=
  unfold in_range, is_bit, max_value, modulus; cbn; lia.

(** ** The code on small inputs *)

Example add_u8_wraps :
  add_with_carry_const 8 200 100 1 = {| sum := 45; carry := 1 |}.
Proof. reflexivity. Qed.

Example add_u8_out_of_range_carry :
  add_with_carry_const 8 255 255 255 = {| sum := 253; carry := 2 |}.
Proof. reflexivity. Qed.

Example sub_u8_wraps :
  sub_with_borrow_const 8 0 255 2 = {| diff := 255; borrow := 2 |}.
Proof. reflexivity. Qed.

Example addc_u8_out_of_range_carry :
  add_with_carry (lp64 true) UChar 255 255 255 = {| sum := 253; carry := 1 |}.
Proof. reflexivity. Qed.

(** ** Arithmetic of one wrapped operation *)

Lemma modulus_ge_2 (w : Z) : 0 < w -> 2 <= modulus w.
Proof.
  intros Hw. unfold modulus.
  replace 2 with (2 ^ 1) at 1 by reflexivity.
  apply Z.pow_le_mono_r; lia.
Qed.

Lemma wrap_small (w x : Z) : 0 <= x < modulus w -> wrap w x = x.
Proof. intros Hx. unfold wrap. now apply Z.mod_small. Qed.

Lemma wrap_in_range (w x : Z) : 0 < w -> in_range w (wrap w x).
Proof.
  intros Hw. pose proof (modulus_ge_2 w Hw).
  unfold in_range, wrap. apply Z.mod_pos_bound. lia.
Qed.

(** An addition of two values of the type wraps at most once. *)
Lemma wrap_add_cases (w x : Z) :
  0 <= x < 2 * modulus w ->
  (x < modulus w /\ wrap w x = x) \/
  (modulus w <= x /\ wrap w x = x - modulus w).
Proof.
  intros Hx. destruct (Z_lt_le_dec x (modulus w)) as [Hlt | Hge].
  - left. split; [assumption | apply wrap_small; lia].
  - right. split; [assumption |]. unfold wrap.
    replace x with (x - modulus w + 1 * modulus w) at 1 by ring.
    rewrite Z.mod_add by lia. apply Z.mod_small. lia.
Qed.

(** A subtraction of two values of the type wraps at most once. *)
Lemma wrap_sub_cases (w x : Z) :
  - modulus w <= x < modulus w ->
  (x < 0 /\ wrap w x = x + modulus w) \/
  (0 <= x /\ wrap w x = x).
Proof.
  intros Hx. destruct (Z_lt_le_dec x 0) as [Hlt | Hge].
  - left. split; [assumption |]. unfold wrap.
    replace x with (x + modulus w + (-1) * modulus w) at 1 by ring.
    rewrite Z.mod_add by lia. apply Z.mod_small. lia.
  - right. split; [assumption | apply wrap_small; lia].
Qed.

(** ** The portable engines decompose the exact result *)

Section Portable.

Variable w : Z.
Hypothesis w_pos : 0 < w.

Lemma add_with_carry_const_spec (a b carry_in : Z) :
  in_range w a -> in_range w b -> in_range w carry_in ->
  let r := add_with_carry_const w a b carry_in in
  in_range w (sum r) /\ 0 <= carry r <= 2 /\
  a + b + carry_in = sum r + carry r * modulus w.
Proof.
  unfold in_range. intros Ha Hb Hc. pose proof (modulus_ge_2 w w_pos) as HM.
  unfold add_with_carry_const; cbn [sum carry].
  destruct (wrap_add_cases w (a + carry_in)) as [[H1 ->] | [H1 ->]];
    [lia | |];
    (match goal with
     | |- context [wrap w (b + ?t)] =>
         destruct (wrap_add_cases w (b + t)) as [[H2 ->] | [H2 ->]]; [lia | |]
     end);
    decide_comparisons; try lia;
    rewrite wrap_small by lia; lia.
Qed.

Lemma sub_with_borrow_const_spec (a b borrow_in : Z) :
  in_range w a -> in_range w b -> in_range w borrow_in ->
  let r := sub_with_borrow_const w a b borrow_in in
  in_range w (diff r) /\ 0 <= borrow r <= 2 /\
  a - b - borrow_in = diff r - borrow r * modulus w.
Proof.
  unfold in_range. intros Ha Hb Hc. pose proof (modulus_ge_2 w w_pos) as HM.
  unfold sub_with_borrow_const; cbn [diff borrow].
  destruct (wrap_sub_cases w (a - b)) as [[H1 ->] | [H1 ->]];
    [lia | |];
    (match goal with
     | |- context [wrap w (?t - borrow_in)] =>
         destruct (wrap_sub_cases w (t - borrow_in)) as [[H2 ->] | [H2 ->]];
         [lia | |]
     end);
    decide_comparisons; try lia;
    rewrite wrap_small by lia; lia.
Qed.

(** A value below the modulus and a multiple of the modulus determine
    each other. *)
Lemma decomposition_unique (s1 c1 s2 c2 : Z) :
  in_range w s1 -> in_range w s2 ->
  s1 + c1 * modulus w = s2 + c2 * modulus w ->
  s1 = s2 /\ c1 = c2.
Proof.
  unfold in_range. intros H1 H2 E.
  assert (c1 = c2) as -> by nia.
  split; [lia | reflexivity].
Qed.

Lemma is_bit_in_range (c : Z) : is_bit c -> in_range w c.
Proof.
  pose proof (modulus_ge_2 w w_pos). unfold is_bit, in_range. lia.
Qed.

Lemma max_value_in_range : in_range w (max_value w).
Proof.
  pose proof (modulus_ge_2 w w_pos). unfold max_value, in_range. lia.
Qed.

(** With a carry that is a bit the two stages cannot both wrap. *)
Lemma add_with_carry_const_bit (a b carry_in : Z) :
  in_range w a -> in_range w b -> is_bit carry_in ->
  is_bit (carry (add_with_carry_const w a b carry_in)).
Proof.
  intros Ha Hb Hc.
  destruct (add_with_carry_const_spec a b carry_in Ha Hb
              (is_bit_in_range _ Hc)) as (Hs & Hr & E).
  unfold in_range, is_bit in *. nia.
Qed.

Lemma sub_with_borrow_const_bit (a b borrow_in : Z) :
  in_range w a -> in_range w b -> is_bit borrow_in ->
  is_bit (borrow (sub_with_borrow_const w a b borrow_in)).
Proof.
  intros Ha Hb Hc.
  destruct (sub_with_borrow_const_spec a b borrow_in Ha Hb
              (is_bit_in_range _ Hc)) as (Hs & Hr & E).
  unfold in_range, is_bit in *. nia.
Qed.

(** ** The builtins against the portable engines *)

Lemma builtin_addc_const (a b carry_in : Z) :
  in_range w a -> in_range w b -> is_bit carry_in ->
  builtin_addc w a b carry_in =
  (sum (add_with_carry_const w a b carry_in),
   carry (add_with_carry_const w a b carry_in)).
Proof.
  intros Ha Hb Hc.
  pose proof (add_with_carry_const_bit a b carry_in Ha Hb Hc) as Hbit.
  destruct (add_with_carry_const_spec a b carry_in Ha Hb
              (is_bit_in_range _ Hc)) as (Hs & _ & E).
  pose proof (modulus_ge_2 w w_pos) as HM.
  destruct (add_with_carry_const w a b carry_in) as [s c]; cbn [sum carry] in *.
  unfold builtin_addc, uadd_with_overflow, in_range, is_bit in *.
  destruct (wrap_add_cases w (a + b)) as [[H1 ->] | [H1 ->]]; [lia | |];
    (match goal with
     | |- context [wrap w (?t + carry_in)] =>
         destruct (wrap_add_cases w (t + carry_in)) as [[H2 ->] | [H2 ->]];
         [lia | |]
     end);
    decide_comparisons; try lia; f_equal; nia.
Qed.

Lemma builtin_subc_const (a b borrow_in : Z) :
  in_range w a -> in_range w b -> is_bit borrow_in ->
  builtin_subc w a b borrow_in =
  (diff (sub_with_borrow_const w a b borrow_in),
   borrow (sub_with_borrow_const w a b borrow_in)).
Proof.
  intros Ha Hb Hc.
  pose proof (sub_with_borrow_const_bit a b borrow_in Ha Hb Hc) as Hbit.
  destruct (sub_with_borrow_const_spec a b borrow_in Ha Hb
              (is_bit_in_range _ Hc)) as (Hs & _ & E).
  pose proof (modulus_ge_2 w w_pos) as HM.
  destruct (sub_with_borrow_const w a b borrow_in) as [d c];
    cbn [diff borrow] in *.
  unfold builtin_subc, usub_with_overflow, in_range, is_bit in *.
  destruct (wrap_sub_cases w (a - b)) as [[H1 ->] | [H1 ->]]; [lia | |];
    (match goal with
     | |- context [wrap w (?t - borrow_in)] =>
         destruct (wrap_sub_cases w (t - borrow_in)) as [[H2 ->] | [H2 ->]];
         [lia | |]
     end);
    decide_comparisons; try lia; f_equal; nia.
Qed.

End Portable.

(** ** The entry points against the portable engines *)

Lemma SumCarry_eta (r : SumCarry) : {| sum := sum r; carry := carry r |} = r.
Proof. now destruct r. Qed.

Lemma DiffBorrow_eta (r : DiffBorrow) :
  {| diff := diff r; borrow := borrow r |} = r.
Proof. now destruct r. Qed.

Section Entry.

Variable tg : target.
Variable t : utype.
Hypothesis width_pos : 0 < bits tg t.

Lemma add_with_carry_spec_const (f : Z -> Z -> Z -> SumCarry) (a b carry_in : Z) :
  add_with_carry_spec tg t = Some f ->
  in_range (bits tg t) a -> in_range (bits tg t) b -> is_bit carry_in ->
  f a b carry_in = add_with_carry_const (bits tg t) a b carry_in.
Proof.
  intros Hf Ha Hb Hc.
  pose proof (builtin_addc_const _ width_pos a b carry_in Ha Hb Hc) as E.
  destruct t; inversion Hf; subst f;
    unfold add_with_carry_builtin, builtin_addcb, builtin_addcs,
      builtin_addci, builtin_addcl, builtin_addcll;
    rewrite E; apply SumCarry_eta.
Qed.

Lemma sub_with_borrow_spec_const (g : Z -> Z -> Z -> DiffBorrow)
    (a b borrow_in : Z) :
  sub_with_borrow_spec tg t = Some g ->
  in_range (bits tg t) a -> in_range (bits tg t) b -> is_bit borrow_in ->
  g a b borrow_in = sub_with_borrow_const (bits tg t) a b borrow_in.
Proof.
  intros Hg Ha Hb Hc.
  pose proof (builtin_subc_const _ width_pos a b borrow_in Ha Hb Hc) as E.
  destruct t; inversion Hg; subst g;
    unfold sub_with_borrow_builtin, builtin_subcb, builtin_subcs,
      builtin_subci, builtin_subcl, builtin_subcll;
    rewrite E; apply DiffBorrow_eta.
Qed.

(** Whatever the selection, on a carry that is a bit the entry point
    returns what the portable engine returns. *)
Lemma add_with_carry_dispatch (a b carry_in : Z) :
  in_range (bits tg t) a -> in_range (bits tg t) b -> is_bit carry_in ->
  add_with_carry tg t a b carry_in =
  add_with_carry_const (bits tg t) a b carry_in.
Proof.
  intros Ha Hb Hc. unfold add_with_carry.
  destruct (has_builtin_addc tg); [| reflexivity].
  destruct (add_with_carry_spec tg t) as [f |] eqn:Hf; [| reflexivity].
  now apply add_with_carry_spec_const.
Qed.

Lemma sub_with_borrow_dispatch (a b borrow_in : Z) :
  in_range (bits tg t) a -> in_range (bits tg t) b -> is_bit borrow_in ->
  sub_with_borrow tg t a b borrow_in =
  sub_with_borrow_const (bits tg t) a b borrow_in.
Proof.
  intros Ha Hb Hc. unfold sub_with_borrow.
  destruct (has_builtin_subc tg); [| reflexivity].
  destruct (sub_with_borrow_spec tg t) as [g |] eqn:Hg; [| reflexivity].
  now apply sub_with_borrow_spec_const.
Qed.

End Entry.

(** ** The properties of the specification *)

(** C1 (carry identity): at every width, for [a] and [b] of the type and a
    carry-in of 0 or 1, the pair returned by [add_with_carry], and the pair
    returned by [add_with_carry_const], satisfies
    [a + b + carry_in = sum + carry_out * 2^width] over the integers. *)
Theorem carry_identity (tg : target) (t : utype) (a b carry_in : Z) :
  0 < bits tg t ->
  in_range (bits tg t) a -> in_range (bits tg t) b -> is_bit carry_in ->
  let r := add_with_carry tg t a b carry_in in
  let rc := add_with_carry_const (bits tg t) a b carry_in in
  a + b + carry_in = sum r + carry r * 2 ^ bits tg t /\
  a + b + carry_in = sum rc + carry rc * 2 ^ bits tg t.
Proof.
  intros Hw Ha Hb Hc. cbv zeta.
  rewrite add_with_carry_dispatch by assumption.
  pose proof (add_with_carry_const_spec _ Hw a b carry_in Ha Hb
                (is_bit_in_range _ Hw _ Hc)) as (_ & _ & E).
  split; exact E.
Qed.

Lemma carry_identity_witness :
  200 + 100 + 1 =
    sum (add_with_carry (lp64 true) UChar 200 100 1) +
    carry (add_with_carry (lp64 true) UChar 200 100 1) * 2 ^ 8 /\
  200 + 100 + 1 =
    sum (add_with_carry_const 8 200 100 1) +
    carry (add_with_carry_const 8 200 100 1) * 2 ^ 8.
Proof.
  refine (carry_identity (lp64 true) UChar 200 100 1 _ _ _ _); concrete.
Defined.

(** C2 (borrow identity): at every width, for [a] and [b] of the type and a
    borrow-in of 0 or 1, the pair returned by [sub_with_borrow], and the
    pair returned by [sub_with_borrow_const], satisfies
    [a - b - borrow_in = diff - borrow_out * 2^width] over the integers. *)
Theorem borrow_identity (tg : target) (t : utype) (a b borrow_in : Z) :
  0 < bits tg t ->
  in_range (bits tg t) a -> in_range (bits tg t) b -> is_bit borrow_in ->
  let r := sub_with_borrow tg t a b borrow_in in
  let rc := sub_with_borrow_const (bits tg t) a b borrow_in in
  a - b - borrow_in = diff r - borrow r * 2 ^ bits tg t /\
  a - b - borrow_in = diff rc - borrow rc * 2 ^ bits tg t.
Proof.
  intros Hw Ha Hb Hc. cbv zeta.
  rewrite sub_with_borrow_dispatch by assumption.
  pose proof (sub_with_borrow_const_spec _ Hw a b borrow_in Ha Hb
                (is_bit_in_range _ Hw _ Hc)) as (_ & _ & E).
  split; exact E.
Qed.

Lemma borrow_identity_witness :
  100 - 200 - 1 =
    diff (sub_with_borrow (lp64 true) UShort 100 200 1) -
    borrow (sub_with_borrow (lp64 true) UShort 100 200 1) * 2 ^ 16 /\
  100 - 200 - 1 =
    diff (sub_with_borrow_const 16 100 200 1) -
    borrow (sub_with_borrow_const 16 100 200 1) * 2 ^ 16.
Proof.
  refine (borrow_identity (lp64 true) UShort 100 200 1 _ _ _ _); concrete.
Defined.

(** C3 (arithmetic equivalence): at every width, for [a] and [b] of the
    type and a carry-in or borrow-in of 0 or 1, each builtin-based
    specialisation of [add_with_carry] and of [sub_with_borrow] returns the
    very pair that [add_with_carry_const], respectively
    [sub_with_borrow_const], returns on the same inputs. *)
Theorem accelerated_equals_portable (tg : target) (t : utype) (a b c : Z) :
  0 < bits tg t ->
  in_range (bits tg t) a -> in_range (bits tg t) b -> is_bit c ->
  (forall f, add_with_carry_spec tg t = Some f ->
             f a b c = add_with_carry_const (bits tg t) a b c) /\
  (forall g, sub_with_borrow_spec tg t = Some g ->
             g a b c = sub_with_borrow_const (bits tg t) a b c).
Proof.
  intros Hw Ha Hb Hc. split.
  - intros f Hf. now apply add_with_carry_spec_const.
  - intros g Hg. now apply sub_with_borrow_spec_const.
Qed.

Lemma accelerated_equals_portable_witness :
  (forall f, add_with_carry_spec (lp64 true) UInt = Some f ->
             f 4294967295 7 1 = add_with_carry_const 32 4294967295 7 1) /\
  (forall g, sub_with_borrow_spec (lp64 true) UInt = Some g ->
             g 4294967295 7 1 = sub_with_borrow_const 32 4294967295 7 1).
Proof.
  refine (accelerated_equals_portable (lp64 true) UInt 4294967295 7 1 _ _ _ _);
    concrete.
Defined.

(** C4 (flag is a bit): at every width, for [a] and [b] of the type,
    whenever the carry-in (the borrow-in) is 0 or 1, the carry returned by
    [add_with_carry] (the borrow returned by [sub_with_borrow]) is 0 or 1. *)
Theorem flag_is_bit (tg : target) (t : utype) (a b c : Z) :
  0 < bits tg t ->
  in_range (bits tg t) a -> in_range (bits tg t) b -> is_bit c ->
  is_bit (carry (add_with_carry tg t a b c)) /\
  is_bit (borrow (sub_with_borrow tg t a b c)).
Proof.
  intros Hw Ha Hb Hc.
  rewrite add_with_carry_dispatch, sub_with_borrow_dispatch by assumption.
  split.
  - now apply add_with_carry_const_bit.
  - now apply sub_with_borrow_const_bit.
Qed.

Lemma flag_is_bit_witness :
  is_bit (carry (add_with_carry (lp64 false) ULong 18446744073709551615 1 1)) /\
  is_bit (borrow (sub_with_borrow (lp64 false) ULong 18446744073709551615 1 1)).
Proof.
  refine (flag_is_bit (lp64 false) ULong 18446744073709551615 1 1 _ _ _ _);
    concrete.
Defined.

(** C5 (boundary cases): at every width, with [MAX = 2^width - 1],
    [add_with_carry(MAX, MAX, 1)] returns [(sum = MAX, carry_out = 1)] and
    [sub_with_borrow(0, 0, 1)] returns [(diff = MAX, borrow_out = 1)]. *)
Theorem boundary_cases (tg : target) (t : utype) :
  0 < bits tg t ->
  add_with_carry tg t (2 ^ bits tg t - 1) (2 ^ bits tg t - 1) 1 =
    {| sum := 2 ^ bits tg t - 1; carry := 1 |} /\
  sub_with_borrow tg t 0 0 1 =
    {| diff := 2 ^ bits tg t - 1; borrow := 1 |}.
Proof.
  intros Hw. set (w := bits tg t) in *.
  change (2 ^ w - 1) with (max_value w).
  pose proof (max_value_in_range w Hw) as Hmax.
  assert (is_bit 1) as Hone by (now right).
  assert (in_range w 0) as Hzero by (apply is_bit_in_range; [assumption | now left]).
  pose proof (modulus_ge_2 w Hw) as HM.
  split.
  - subst w. rewrite add_with_carry_dispatch by assumption.
    pose proof (add_with_carry_const_spec _ Hw _ _ 1 Hmax Hmax
                  (is_bit_in_range _ Hw _ Hone)) as (Hs & _ & E).
    pose proof (add_with_carry_const_bit _ Hw _ _ 1 Hmax Hmax Hone) as Hbit.
    destruct (add_with_carry_const _ _ _ _) as [s c]; cbn [sum carry] in *.
    unfold in_range, is_bit, max_value in *. f_equal; nia.
  - subst w. rewrite sub_with_borrow_dispatch by assumption.
    pose proof (sub_with_borrow_const_spec _ Hw 0 0 1 Hzero Hzero
                  (is_bit_in_range _ Hw _ Hone)) as (Hs & _ & E).
    pose proof (sub_with_borrow_const_bit _ Hw 0 0 1 Hzero Hzero Hone) as Hbit.
    destruct (sub_with_borrow_const _ _ _ _) as [d c]; cbn [diff borrow] in *.
    unfold in_range, is_bit, max_value in *. f_equal; nia.
Qed.

Lemma boundary_cases_witness :
  add_with_carry (lp64 true) UChar 255 255 1 = {| sum := 255; carry := 1 |} /\
  sub_with_borrow (lp64 true) UChar 0 0 1 = {| diff := 255; borrow := 1 |}.
Proof.
  refine (boundary_cases (lp64 true) UChar _); concrete.
Defined.

(** C6 (zero identity): at every width and for every [a] of the type,
    [add_with_carry(a, 0, 0)] returns [(a, 0)] and [sub_with_borrow(a, 0, 0)]
    returns [(a, 0)]. *)
Theorem zero_identity (tg : target) (t : utype) (a : Z) :
  0 < bits tg t -> in_range (bits tg t) a ->
  add_with_carry tg t a 0 0 = {| sum := a; carry := 0 |} /\
  sub_with_borrow tg t a 0 0 = {| diff := a; borrow := 0 |}.
Proof.
  intros Hw Ha.
  assert (is_bit 0) as Hbit0 by (now left).
  pose proof (is_bit_in_range _ Hw _ Hbit0) as Hzero.
  split.
  - rewrite add_with_carry_dispatch by assumption.
    pose proof (add_with_carry_const_spec _ Hw a 0 0 Ha Hzero Hzero)
      as (Hs & _ & E).
    destruct (add_with_carry_const _ _ _ _) as [s c]; cbn [sum carry] in *.
    destruct (decomposition_unique _ a 0 s c Ha Hs) as [-> ->];
      [lia | reflexivity].
  - rewrite sub_with_borrow_dispatch by assumption.
    pose proof (sub_with_borrow_const_spec _ Hw a 0 0 Ha Hzero Hzero)
      as (Hs & _ & E).
    destruct (sub_with_borrow_const _ _ _ _) as [d c]; cbn [diff borrow] in *.
    destruct (decomposition_unique _ a 0 d (- c) Ha Hs) as [-> Hc];
      [lia | f_equal; lia].
Qed.

Lemma zero_identity_witness :
  add_with_carry (lp64 true) UInt128 12345 0 0 =
    {| sum := 12345; carry := 0 |} /\
  sub_with_borrow (lp64 true) UInt128 12345 0 0 =
    {| diff := 12345; borrow := 0 |}.
Proof.
  refine (zero_identity (lp64 true) UInt128 12345 _ _); concrete.
Defined.

(** C7 (chaining): with 64-bit limbs, adding the low limbs
    [add_with_carry(0xFFFFFFFFFFFFFFFF, 1, 0)] and then the high limbs
    [add_with_carry(0, 0, carry_out of the low limbs)] gives the limbs
    [(low = 0, high = 1)], the 128-bit value [0x1_0000000000000000]. *)
Theorem chaining_two_limbs (tg : target) (t : utype) :
  bits tg t = 64 ->
  let lo := add_with_carry tg t 0xFFFFFFFFFFFFFFFF 0x0000000000000001 0 in
  let hi := add_with_carry tg t 0 0 (carry lo) in
  (sum lo, sum hi) = (0x0000000000000000, 0x0000000000000001) /\
  carry hi = 0 /\
  sum lo + sum hi * 2 ^ 64 = 0x10000000000000000.
Proof.
  intros H64.
  assert (0 < bits tg t) as Hw by lia.
  assert (is_bit 0) as Hbit0 by (now left).
  assert (in_range (bits tg t) 0) as Hzero by (rewrite H64; concrete).
  assert (in_range (bits tg t) 0xFFFFFFFFFFFFFFFF) as Hmax
    by (rewrite H64; concrete).
  assert (in_range (bits tg t) 1) as Hone by (rewrite H64; concrete).
  cbv zeta.
  rewrite (add_with_carry_dispatch tg t Hw _ _ 0 Hmax Hone Hbit0).
  rewrite H64.
  change (carry (add_with_carry_const 64 0xFFFFFFFFFFFFFFFF 1 0)) with 1.
  rewrite (add_with_carry_dispatch tg t Hw 0 0 1 Hzero Hzero (or_intror eq_refl)).
  rewrite H64. now vm_compute.
Qed.

Lemma chaining_two_limbs_witness :
  (sum (add_with_carry (lp64 true) ULongLong 18446744073709551615 1 0),
   sum (add_with_carry (lp64 true) ULongLong 0 0
          (carry (add_with_carry (lp64 true) ULongLong
                    18446744073709551615 1 0)))) = (0, 1) /\
  carry (add_with_carry (lp64 true) ULongLong 0 0
           (carry (add_with_carry (lp64 true) ULongLong
                     18446744073709551615 1 0))) = 0 /\
  sum (add_with_carry (lp64 true) ULongLong 18446744073709551615 1 0) +
  sum (add_with_carry (lp64 true) ULongLong 0 0
         (carry (add_with_carry (lp64 true) ULongLong
                   18446744073709551615 1 0))) * 2 ^ 64 =
  18446744073709551616.
Proof.
  refine (chaining_two_limbs (lp64 true) ULongLong _); reflexivity.
Defined.

(** C8 (round trip): at every width and for [a] and [b] of the type, if
    [add_with_carry_const(a, b, 0)] returns [(s, c)] then
    [sub_with_borrow_const(s, b, 0)] returns [(a, c)]: the subtraction
    gives the operand back and its borrow is the carry of the addition. *)
Theorem add_then_sub_round_trip (w a b s c : Z) :
  0 < w -> in_range w a -> in_range w b ->
  add_with_carry_const w a b 0 = {| sum := s; carry := c |} ->
  sub_with_borrow_const w s b 0 = {| diff := a; borrow := c |}.
Proof.
  intros Hw Ha Hb Hadd.
  assert (is_bit 0) as Hbit0 by (now left).
  pose proof (is_bit_in_range _ Hw _ Hbit0) as Hzero.
  pose proof (add_with_carry_const_spec _ Hw a b 0 Ha Hb Hzero) as (Hs & _ & E).
  rewrite Hadd in Hs, E; cbn [sum carry] in Hs, E.
  pose proof (sub_with_borrow_const_spec _ Hw s b 0 Hs Hb Hzero)
    as (Hd & _ & E').
  destruct (sub_with_borrow_const w s b 0) as [d r]; cbn [diff borrow] in *.
  destruct (decomposition_unique _ a (- c) d (- r) Ha Hd) as [-> Hc];
    [lia | f_equal; lia].
Qed.

Lemma add_then_sub_round_trip_witness :
  sub_with_borrow_const 8 44 100 0 = {| diff := 200; borrow := 1 |}.
Proof.
  refine (add_then_sub_round_trip 8 200 100 44 1 _ _ _ _);
    [concrete | concrete | concrete | reflexivity].
Defined.

(** C9 (out-of-range carry): at every width, for [a], [b] and any carry-in
    of the type, not only 0 or 1, [add_with_carry_const] returns a pair with
    [a + b + carry_in = sum + carry_out * 2^width] and [carry_out] among 0,
    1 and 2; for any borrow-in of the type, [sub_with_borrow_const] returns
    a pair with [a - b - borrow_in = diff - borrow_out * 2^width] and
    [borrow_out] among 0, 1 and 2. *)
Theorem portable_identity_any_flag (w a b c : Z) :
  0 < w -> in_range w a -> in_range w b -> in_range w c ->
  let r := add_with_carry_const w a b c in
  let q := sub_with_borrow_const w a b c in
  (a + b + c = sum r + carry r * 2 ^ w /\
   (carry r = 0 \/ carry r = 1 \/ carry r = 2)) /\
  (a - b - c = diff q - borrow q * 2 ^ w /\
   (borrow q = 0 \/ borrow q = 1 \/ borrow q = 2)).
Proof.
  intros Hw Ha Hb Hc. cbv zeta.
  pose proof (add_with_carry_const_spec _ Hw a b c Ha Hb Hc) as (_ & Hr & E).
  pose proof (sub_with_borrow_const_spec _ Hw a b c Ha Hb Hc) as (_ & Hq & E').
  repeat split; try assumption; lia.
Qed.

Lemma portable_identity_any_flag_witness :
  (255 + 255 + 255 =
     sum (add_with_carry_const 8 255 255 255) +
     carry (add_with_carry_const 8 255 255 255) * 2 ^ 8 /\
   (carry (add_with_carry_const 8 255 255 255) = 0 \/
    carry (add_with_carry_const 8 255 255 255) = 1 \/
    carry (add_with_carry_const 8 255 255 255) = 2)) /\
  (255 - 255 - 255 =
     diff (sub_with_borrow_const 8 255 255 255) -
     borrow (sub_with_borrow_const 8 255 255 255) * 2 ^ 8 /\
   (borrow (sub_with_borrow_const 8 255 255 255) = 0 \/
    borrow (sub_with_borrow_const 8 255 255 255) = 1 \/
    borrow (sub_with_borrow_const 8 255 255 255) = 2)).
Proof.
  refine (portable_identity_any_flag 8 255 255 255 _ _ _ _); concrete.
Defined.

(** C10 (commutativity): at every width and for [a], [b] and any carry-in
    of the type, [add_with_carry_const(a, b, carry_in)] and
    [add_with_carry_const(b, a, carry_in)] return the same pair, carry
    included. *)
Theorem add_with_carry_const_comm (w a b carry_in : Z) :
  0 < w -> in_range w a -> in_range w b -> in_range w carry_in ->
  add_with_carry_const w a b carry_in = add_with_carry_const w b a carry_in.
Proof.
  intros Hw Ha Hb Hc.
  pose proof (add_with_carry_const_spec _ Hw a b carry_in Ha Hb Hc)
    as (Hs & _ & E).
  pose proof (add_with_carry_const_spec _ Hw b a carry_in Hb Ha Hc)
    as (Hs' & _ & E').
  destruct (add_with_carry_const w a b carry_in) as [s c].
  destruct (add_with_carry_const w b a carry_in) as [s' c'].
  cbn [sum carry] in *.
  destruct (decomposition_unique _ s c s' c' Hs Hs') as [-> ->];
    [lia | reflexivity].
Qed.

Lemma add_with_carry_const_comm_witness :
  add_with_carry_const 8 255 3 254 = add_with_carry_const 8 3 255 254.
Proof.
  refine (add_with_carry_const_comm 8 255 3 254 _ _ _ _); concrete.
Defined.

(** ** Further properties of the portable engines *)

(** X1: at every width, for [a], [b] and any carry-in of the type,
    [add_with_carry_const] returns the remainder and the quotient of the
    exact sum [a + b + carry_in] by [2^width]. *)
Theorem add_with_carry_const_div_mod (w a b carry_in : Z) :
  0 < w -> in_range w a -> in_range w b -> in_range w carry_in ->
  add_with_carry_const w a b carry_in =
    {| sum := (a + b + carry_in) mod 2 ^ w;
       carry := (a + b + carry_in) / 2 ^ w |}.
Proof.
  intros Hw Ha Hb Hc.
  pose proof (add_with_carry_const_spec _ Hw a b carry_in Ha Hb Hc)
    as (Hs & _ & E).
  destruct (add_with_carry_const w a b carry_in) as [s c].
  cbn [sum carry] in *. unfold in_range, modulus in *.
  f_equal.
  - apply (Z.mod_unique_pos _ _ c); [assumption | lia].
  - apply (Z.div_unique_pos _ _ _ s); [assumption | lia].
Qed.

Lemma add_with_carry_const_div_mod_witness :
  add_with_carry_const 8 250 251 252 =
    {| sum := (250 + 251 + 252) mod 2 ^ 8;
       carry := (250 + 251 + 252) / 2 ^ 8 |}.
Proof.
  refine (add_with_carry_const_div_mod 8 250 251 252 _ _ _ _); concrete.
Defined.

(** X2: at every width, for [a], [b] and any borrow-in of the type,
    [sub_with_borrow_const] returns the remainder of the exact difference
    [a - b - borrow_in] by [2^width] and, as the borrow, the number of times
    [2^width] had to be added to make it non-negative. *)
Theorem sub_with_borrow_const_div_mod (w a b borrow_in : Z) :
  0 < w -> in_range w a -> in_range w b -> in_range w borrow_in ->
  sub_with_borrow_const w a b borrow_in =
    {| diff := (a - b - borrow_in) mod 2 ^ w;
       borrow := - ((a - b - borrow_in) / 2 ^ w) |}.
Proof.
  intros Hw Ha Hb Hc.
  pose proof (sub_with_borrow_const_spec _ Hw a b borrow_in Ha Hb Hc)
    as (Hd & _ & E).
  destruct (sub_with_borrow_const w a b borrow_in) as [d r].
  cbn [diff borrow] in *. unfold in_range, modulus in *.
  f_equal.
  - apply (Z.mod_unique_pos _ _ (- r)); [assumption | lia].
  - rewrite <- (Z.div_unique_pos _ _ (- r) d); [lia | assumption | lia].
Qed.

Lemma sub_with_borrow_const_div_mod_witness :
  sub_with_borrow_const 8 0 255 2 =
    {| diff := (0 - 255 - 2) mod 2 ^ 8;
       borrow := - ((0 - 255 - 2) / 2 ^ 8) |}.
Proof.
  refine (sub_with_borrow_const_div_mod 8 0 255 2 _ _ _ _); concrete.
Defined.

(** ** Further properties of the entry points *)

(** X3: whichever strategy is selected, with a carry-in of 0 or 1 the carry
    returned by [add_with_carry] is 0 exactly when [a + b + carry_in] fits
    the type, and then the sum returned is that exact value. *)
Theorem no_carry_iff_fits (tg : target) (t : utype) (a b carry_in : Z) :
  0 < bits tg t ->
  in_range (bits tg t) a -> in_range (bits tg t) b -> is_bit carry_in ->
  let r := add_with_carry tg t a b carry_in in
  (carry r = 0 <-> a + b + carry_in < 2 ^ bits tg t) /\
  (carry r = 0 -> sum r = a + b + carry_in).
Proof.
  intros Hw Ha Hb Hc. cbv zeta.
  rewrite add_with_carry_dispatch by assumption.
  pose proof (add_with_carry_const_spec _ Hw a b carry_in Ha Hb
                (is_bit_in_range _ Hw _ Hc)) as (Hs & _ & E).
  pose proof (add_with_carry_const_bit _ Hw a b carry_in Ha Hb Hc) as Hbit.
  destruct (add_with_carry_const _ a b carry_in) as [s c].
  cbn [sum carry] in *. unfold in_range, is_bit, modulus in *.
  repeat split; intros; nia.
Qed.

Lemma no_carry_iff_fits_witness :
  (carry (add_with_carry (lp64 true) UChar 200 55 0) = 0 <->
   200 + 55 + 0 < 2 ^ 8) /\
  (carry (add_with_carry (lp64 true) UChar 200 55 0) = 0 ->
   sum (add_with_carry (lp64 true) UChar 200 55 0) = 200 + 55 + 0).
Proof.
  refine (no_carry_iff_fits (lp64 true) UChar 200 55 0 _ _ _ _); concrete.
Defined.

(** X4: whichever strategy is selected, with a borrow-in of 0 or 1 the
    borrow returned by [sub_with_borrow] is 1 exactly when
    [a < b + borrow_in]; with no borrow-in it is the comparison [a < b].
    When no borrow is returned the difference is the exact value. *)
Theorem borrow_iff_less (tg : target) (t : utype) (a b borrow_in : Z) :
  0 < bits tg t ->
  in_range (bits tg t) a -> in_range (bits tg t) b -> is_bit borrow_in ->
  let r := sub_with_borrow tg t a b borrow_in in
  (borrow r = 1 <-> a < b + borrow_in) /\
  (borrow r = 0 -> diff r = a - b - borrow_in).
Proof.
  intros Hw Ha Hb Hc. cbv zeta.
  rewrite sub_with_borrow_dispatch by assumption.
  pose proof (sub_with_borrow_const_spec _ Hw a b borrow_in Ha Hb
                (is_bit_in_range _ Hw _ Hc)) as (Hs & _ & E).
  pose proof (sub_with_borrow_const_bit _ Hw a b borrow_in Ha Hb Hc) as Hbit.
  destruct (sub_with_borrow_const _ a b borrow_in) as [d c].
  cbn [diff borrow] in *. unfold in_range, is_bit, modulus in *.
  repeat split; intros; nia.
Qed.

Lemma borrow_iff_less_witness :
  (borrow (sub_with_borrow (lp64 true) UShort 7 9 0) = 1 <-> 7 < 9 + 0) /\
  (borrow (sub_with_borrow (lp64 true) UShort 7 9 0) = 0 ->
   diff (sub_with_borrow (lp64 true) UShort 7 9 0) = 7 - 9 - 0).
Proof.
  refine (borrow_iff_less (lp64 true) UShort 7 9 0 _ _ _ _); concrete.
Defined.

(** ** How the two engines relate *)

(** X5: at every width and for any carry of the type, not only with a carry
    of 0: if [add_with_carry_const(a, b, c)] returns [(s, k)] then
    [sub_with_borrow_const(s, b, c)] returns [(a, k)]. *)
Theorem add_then_sub_any_carry (w a b c s k : Z) :
  0 < w -> in_range w a -> in_range w b -> in_range w c ->
  add_with_carry_const w a b c = {| sum := s; carry := k |} ->
  sub_with_borrow_const w s b c = {| diff := a; borrow := k |}.
Proof.
  intros Hw Ha Hb Hc Hadd.
  pose proof (add_with_carry_const_spec _ Hw a b c Ha Hb Hc) as (Hs & _ & E).
  rewrite Hadd in Hs, E; cbn [sum carry] in Hs, E.
  pose proof (sub_with_borrow_const_spec _ Hw s b c Hs Hb Hc) as (Hd & _ & E').
  destruct (sub_with_borrow_const w s b c) as [d r]; cbn [diff borrow] in *.
  destruct (decomposition_unique _ a (- k) d (- r) Ha Hd) as [-> Hk];
    [lia | f_equal; lia].
Qed.

Lemma add_then_sub_any_carry_witness :
  sub_with_borrow_const 8 253 255 255 = {| diff := 255; borrow := 2 |}.
Proof.
  refine (add_then_sub_any_carry 8 255 255 255 253 2 _ _ _ _ _);
    [concrete | concrete | concrete | concrete | reflexivity].
Defined.

(** X6: the other way round, at every width and for any borrow of the
    type: if [sub_with_borrow_const(a, b, c)] returns [(d, r)] then
    [add_with_carry_const(d, b, c)] returns [(a, r)]. *)
Theorem sub_then_add_any_borrow (w a b c d r : Z) :
  0 < w -> in_range w a -> in_range w b -> in_range w c ->
  sub_with_borrow_const w a b c = {| diff := d; borrow := r |} ->
  add_with_carry_const w d b c = {| sum := a; carry := r |}.
Proof.
  intros Hw Ha Hb Hc Hsub.
  pose proof (sub_with_borrow_const_spec _ Hw a b c Ha Hb Hc) as (Hd & _ & E).
  rewrite Hsub in Hd, E; cbn [diff borrow] in Hd, E.
  pose proof (add_with_carry_const_spec _ Hw d b c Hd Hb Hc) as (Hs & _ & E').
  destruct (add_with_carry_const w d b c) as [s k]; cbn [sum carry] in *.
  destruct (decomposition_unique _ a r s k Ha Hs) as [-> ->];
    [lia | reflexivity].
Qed.

Lemma sub_then_add_any_borrow_witness :
  add_with_carry_const 8 255 255 2 = {| sum := 0; carry := 2 |}.
Proof.
  refine (sub_then_add_any_borrow 8 0 255 2 255 2 _ _ _ _ _);
    [concrete | concrete | concrete | concrete | reflexivity].
Defined.

(** X7: at every width, the carry-in of [add_with_carry_const] is a third
    summand like the other two: exchanging it with [a], or with [b], leaves
    the returned pair unchanged. *)
Theorem add_with_carry_const_carry_symm (w a b c : Z) :
  0 < w -> in_range w a -> in_range w b -> in_range w c ->
  add_with_carry_const w a b c = add_with_carry_const w c b a /\
  add_with_carry_const w a b c = add_with_carry_const w a c b.
Proof.
  intros Hw Ha Hb Hc.
  pose proof (add_with_carry_const_spec _ Hw a b c Ha Hb Hc) as (Hs & _ & E).
  pose proof (add_with_carry_const_spec _ Hw c b a Hc Hb Ha) as (Hs1 & _ & E1).
  pose proof (add_with_carry_const_spec _ Hw a c b Ha Hc Hb) as (Hs2 & _ & E2).
  destruct (add_with_carry_const w a b c) as [s k].
  destruct (add_with_carry_const w c b a) as [s1 k1].
  destruct (add_with_carry_const w a c b) as [s2 k2].
  cbn [sum carry] in *.
  destruct (decomposition_unique _ s k s1 k1 Hs Hs1) as [<- <-]; [lia |].
  destruct (decomposition_unique _ s k s2 k2 Hs Hs2) as [<- <-]; [lia |].
  split; reflexivity.
Qed.

Lemma add_with_carry_const_carry_symm_witness :
  add_with_carry_const 8 255 3 254 = add_with_carry_const 8 254 3 255 /\
  add_with_carry_const 8 255 3 254 = add_with_carry_const 8 255 254 3.
Proof.
  refine (add_with_carry_const_carry_symm 8 255 3 254 _ _ _ _); concrete.
Defined.

(** X8: at every width, the subtrahend and the borrow-in of
    [sub_with_borrow_const] can be exchanged: the returned pair is the
    same. *)
Theorem sub_with_borrow_const_swap (w a b c : Z) :
  0 < w -> in_range w a -> in_range w b -> in_range w c ->
  sub_with_borrow_const w a b c = sub_with_borrow_const w a c b.
Proof.
  intros Hw Ha Hb Hc.
  pose proof (sub_with_borrow_const_spec _ Hw a b c Ha Hb Hc) as (Hd & _ & E).
  pose proof (sub_with_borrow_const_spec _ Hw a c b Ha Hc Hb) as (Hd' & _ & E').
  destruct (sub_with_borrow_const w a b c) as [d r].
  destruct (sub_with_borrow_const w a c b) as [d' r'].
  cbn [diff borrow] in *.
  destruct (decomposition_unique _ d (- r) d' (- r') Hd Hd') as [-> Hr];
    [lia | f_equal; lia].
Qed.

Lemma sub_with_borrow_const_swap_witness :
  sub_with_borrow_const 8 5 200 100 = sub_with_borrow_const 8 5 100 200.
Proof.
  refine (sub_with_borrow_const_swap 8 5 200 100 _ _ _ _); concrete.
Defined.

(** X9: at every width and for a borrow-in of 0 or 1, subtracting [b] with
    borrow is adding the complement [MAX - b] with the opposite carry:
    [sub_with_borrow_const(a, b, borrow_in)] returns the sum of
    [add_with_carry_const(a, MAX - b, 1 - borrow_in)] and the opposite of its
    carry. *)
Theorem sub_is_add_of_complement (w a b borrow_in : Z) :
  0 < w -> in_range w a -> in_range w b -> is_bit borrow_in ->
  let r := add_with_carry_const w a (max_value w - b) (1 - borrow_in) in
  sub_with_borrow_const w a b borrow_in =
    {| diff := sum r; borrow := 1 - carry r |}.
Proof.
  intros Hw Ha Hb Hc. cbv zeta.
  assert (in_range w (max_value w - b)) as Hnb
    by (unfold in_range, max_value in *; lia).
  assert (is_bit (1 - borrow_in)) as Hnc by (unfold is_bit in *; lia).
  pose proof (add_with_carry_const_spec _ Hw a _ _ Ha Hnb
                (is_bit_in_range _ Hw _ Hnc)) as (Hs & _ & E).
  pose proof (sub_with_borrow_const_spec _ Hw a b borrow_in Ha Hb
                (is_bit_in_range _ Hw _ Hc)) as (Hd & _ & E').
  destruct (add_with_carry_const w a _ _) as [s k].
  destruct (sub_with_borrow_const w a b borrow_in) as [d q].
  cbn [sum carry diff borrow] in *.
  destruct (decomposition_unique _ d (1 - q) s k Hd Hs) as [-> Hk];
    [unfold max_value in E; lia | f_equal; lia].
Qed.

Lemma sub_is_add_of_complement_witness :
  sub_with_borrow_const 8 5 9 1 =
    {| diff := sum (add_with_carry_const 8 5 (max_value 8 - 9) (1 - 1));
       borrow := 1 - carry (add_with_carry_const 8 5 (max_value 8 - 9) (1 - 1)) |}.
Proof.
  refine (sub_is_add_of_complement 8 5 9 1 _ _ _ _); concrete.
Defined.

(** ** Chains of limbs *)

(** X10: whichever strategy is selected, two chained calls add two-limb
    numbers exactly: with limbs of the type and an initial carry of 0 or 1,
    the low call followed by the high call on the carry of the low one
    returns limbs and a final carry, itself 0 or 1, such that
    [(a_lo + a_hi*2^w) + (b_lo + b_hi*2^w) + carry_in =
     sum_lo + sum_hi*2^w + carry_out*2^(2w)]. *)
Theorem two_limb_addition (tg : target) (t : utype)
    (a_lo a_hi b_lo b_hi carry_in : Z) :
  0 < bits tg t ->
  in_range (bits tg t) a_lo -> in_range (bits tg t) a_hi ->
  in_range (bits tg t) b_lo -> in_range (bits tg t) b_hi ->
  is_bit carry_in ->
  let lo := add_with_carry tg t a_lo b_lo carry_in in
  let hi := add_with_carry tg t a_hi b_hi (carry lo) in
  (a_lo + a_hi * 2 ^ bits tg t) + (b_lo + b_hi * 2 ^ bits tg t) + carry_in =
    sum lo + sum hi * 2 ^ bits tg t + carry hi * 2 ^ (2 * bits tg t) /\
  is_bit (carry hi) /\
  in_range (bits tg t) (sum lo) /\ in_range (bits tg t) (sum hi).
Proof.
  intros Hw Hal Hah Hbl Hbh Hc. cbv zeta.
  rewrite (add_with_carry_dispatch tg t Hw a_lo b_lo carry_in) by assumption.
  pose proof (add_with_carry_const_spec _ Hw a_lo b_lo carry_in Hal Hbl
                (is_bit_in_range _ Hw _ Hc)) as (Hsl & _ & El).
  pose proof (add_with_carry_const_bit _ Hw a_lo b_lo carry_in Hal Hbl Hc)
    as Hkl.
  destruct (add_with_carry_const _ a_lo b_lo carry_in) as [sl kl].
  cbn [sum carry] in *.
  rewrite (add_with_carry_dispatch tg t Hw a_hi b_hi kl) by assumption.
  pose proof (add_with_carry_const_spec _ Hw a_hi b_hi kl Hah Hbh
                (is_bit_in_range _ Hw _ Hkl)) as (Hsh & _ & Eh).
  pose proof (add_with_carry_const_bit _ Hw a_hi b_hi kl Hah Hbh Hkl) as Hkh.
  destruct (add_with_carry_const _ a_hi b_hi kl) as [sh kh].
  cbn [sum carry] in *.
  repeat split; try assumption; try apply Hsl; try apply Hsh.
  replace (2 ^ (2 * bits tg t)) with (modulus (bits tg t) * modulus (bits tg t))
    by (unfold modulus; rewrite <- Z.pow_add_r by lia; f_equal; lia).
  fold (modulus (bits tg t)).
  replace (a_lo + a_hi * modulus (bits tg t) +
           (b_lo + b_hi * modulus (bits tg t)) + carry_in)
    with ((a_lo + b_lo + carry_in) + (a_hi + b_hi) * modulus (bits tg t))
    by ring.
  rewrite El.
  replace (sl + kl * modulus (bits tg t) + (a_hi + b_hi) * modulus (bits tg t))
    with (sl + (a_hi + b_hi + kl) * modulus (bits tg t)) by ring.
  rewrite Eh. ring.
Qed.

Lemma two_limb_addition_witness :
  let lo := add_with_carry (lp64 true) UChar 200 100 1 in
  let hi := add_with_carry (lp64 true) UChar 255 255 (carry lo) in
  (200 + 255 * 2 ^ 8) + (100 + 255 * 2 ^ 8) + 1 =
    sum lo + sum hi * 2 ^ 8 + carry hi * 2 ^ (2 * 8) /\
  is_bit (carry hi) /\ in_range 8 (sum lo) /\ in_range 8 (sum hi).
Proof.
  refine (two_limb_addition (lp64 true) UChar 200 255 100 255 1 _ _ _ _ _ _);
    concrete.
Defined.

(** X11: whichever strategy is selected, two chained calls subtract
    two-limb numbers exactly: with limbs of the type and an initial borrow
    of 0 or 1, the low call followed by the high call on the borrow of the
    low one returns limbs and a final borrow, itself 0 or 1, such that
    [(a_lo + a_hi*2^w) - (b_lo + b_hi*2^w) - borrow_in =
     diff_lo + diff_hi*2^w - borrow_out*2^(2w)]. *)
Theorem two_limb_subtraction (tg : target) (t : utype)
    (a_lo a_hi b_lo b_hi borrow_in : Z) :
  0 < bits tg t ->
  in_range (bits tg t) a_lo -> in_range (bits tg t) a_hi ->
  in_range (bits tg t) b_lo -> in_range (bits tg t) b_hi ->
  is_bit borrow_in ->
  let lo := sub_with_borrow tg t a_lo b_lo borrow_in in
  let hi := sub_with_borrow tg t a_hi b_hi (borrow lo) in
  (a_lo + a_hi * 2 ^ bits tg t) - (b_lo + b_hi * 2 ^ bits tg t) - borrow_in =
    diff lo + diff hi * 2 ^ bits tg t - borrow hi * 2 ^ (2 * bits tg t) /\
  is_bit (borrow hi) /\
  in_range (bits tg t) (diff lo) /\ in_range (bits tg t) (diff hi).
Proof.
  intros Hw Hal Hah Hbl Hbh Hc. cbv zeta.
  rewrite (sub_with_borrow_dispatch tg t Hw a_lo b_lo borrow_in) by assumption.
  pose proof (sub_with_borrow_const_spec _ Hw a_lo b_lo borrow_in Hal Hbl
                (is_bit_in_range _ Hw _ Hc)) as (Hdl & _ & El).
  pose proof (sub_with_borrow_const_bit _ Hw a_lo b_lo borrow_in Hal Hbl Hc)
    as Hkl.
  destruct (sub_with_borrow_const _ a_lo b_lo borrow_in) as [dl kl].
  cbn [diff borrow] in *.
  rewrite (sub_with_borrow_dispatch tg t Hw a_hi b_hi kl) by assumption.
  pose proof (sub_with_borrow_const_spec _ Hw a_hi b_hi kl Hah Hbh
                (is_bit_in_range _ Hw _ Hkl)) as (Hdh & _ & Eh).
  pose proof (sub_with_borrow_const_bit _ Hw a_hi b_hi kl Hah Hbh Hkl) as Hkh.
  destruct (sub_with_borrow_const _ a_hi b_hi kl) as [dh kh].
  cbn [diff borrow] in *.
  repeat split; try assumption; try apply Hdl; try apply Hdh.
  replace (2 ^ (2 * bits tg t)) with (modulus (bits tg t) * modulus (bits tg t))
    by (unfold modulus; rewrite <- Z.pow_add_r by lia; f_equal; lia).
  fold (modulus (bits tg t)).
  replace (a_lo + a_hi * modulus (bits tg t) -
           (b_lo + b_hi * modulus (bits tg t)) - borrow_in)
    with ((a_lo - b_lo - borrow_in) + (a_hi - b_hi) * modulus (bits tg t))
    by ring.
  rewrite El.
  replace (dl - kl * modulus (bits tg t) + (a_hi - b_hi) * modulus (bits tg t))
    with (dl + (a_hi - b_hi - kl) * modulus (bits tg t)) by ring.
  rewrite Eh. ring.
Qed.

Lemma two_limb_subtraction_witness :
  let lo := sub_with_borrow (lp64 true) UChar 0 255 1 in
  let hi := sub_with_borrow (lp64 true) UChar 0 0 (borrow lo) in
  (0 + 0 * 2 ^ 8) - (255 + 0 * 2 ^ 8) - 1 =
    diff lo + diff hi * 2 ^ 8 - borrow hi * 2 ^ (2 * 8) /\
  is_bit (borrow hi) /\ in_range 8 (diff lo) /\ in_range 8 (diff hi).
Proof.
  refine (two_limb_subtraction (lp64 true) UChar 0 0 255 0 1 _ _ _ _ _ _);
    concrete.
Defined.

(** ** The selection seen from a caller *)

(** X12: the selection is transparent: on two targets that give the type
    the same width, whatever builtins each of them has, [add_with_carry] and
    [sub_with_borrow] return the same pairs for [a] and [b] of the type and
    a carry-in or borrow-in of 0 or 1. *)
Theorem selection_transparent (tg1 tg2 : target) (t : utype) (a b c : Z) :
  bits tg1 t = bits tg2 t -> 0 < bits tg1 t ->
  in_range (bits tg1 t) a -> in_range (bits tg1 t) b -> is_bit c ->
  add_with_carry tg1 t a b c = add_with_carry tg2 t a b c /\
  sub_with_borrow tg1 t a b c = sub_with_borrow tg2 t a b c.
Proof.
  intros Hsame Hw Ha Hb Hc.
  rewrite (add_with_carry_dispatch tg1 t Hw a b c Ha Hb Hc).
  rewrite (sub_with_borrow_dispatch tg1 t Hw a b c Ha Hb Hc).
  rewrite Hsame in Hw, Ha, Hb |- *.
  rewrite (add_with_carry_dispatch tg2 t Hw a b c Ha Hb Hc).
  rewrite (sub_with_borrow_dispatch tg2 t Hw a b c Ha Hb Hc).
  split; reflexivity.
Qed.

Lemma selection_transparent_witness :
  add_with_carry (lp64 true) ULong 18446744073709551615 1 1 =
    add_with_carry (lp64 false) ULong 18446744073709551615 1 1 /\
  sub_with_borrow (lp64 true) ULong 18446744073709551615 1 1 =
    sub_with_borrow (lp64 false) ULong 18446744073709551615 1 1.
Proof.
  refine (selection_transparent (lp64 true) (lp64 false) ULong
            18446744073709551615 1 1 _ _ _ _ _);
    [reflexivity | concrete | concrete | concrete | concrete].
Defined.





(** ** Edge behaviour of the subtraction *)

(** X14: whichever strategy is selected, subtracting a value from itself
    returns [(0, 0)] with no borrow-in and [(MAX, 1)] with a borrow-in of 1,
    for every [a] of the type. *)
Theorem sub_with_borrow_self (tg : target) (t : utype) (a : Z) :
  0 < bits tg t -> in_range (bits tg t) a ->
  sub_with_borrow tg t a a 0 = {| diff := 0; borrow := 0 |} /\
  sub_with_borrow tg t a a 1 = {| diff := 2 ^ bits tg t - 1; borrow := 1 |}.
Proof.
  intros Hw Ha.
  assert (is_bit 0) as H0 by (now left).
  assert (is_bit 1) as H1 by (now right).
  pose proof (modulus_ge_2 _ Hw) as HM.
  split.
  - rewrite sub_with_borrow_dispatch by assumption.
    pose proof (sub_with_borrow_const_spec _ Hw a a 0 Ha Ha
                  (is_bit_in_range _ Hw _ H0)) as (Hd & _ & E).
    destruct (sub_with_borrow_const _ a a 0) as [d r]; cbn [diff borrow] in *.
    destruct (decomposition_unique _ d (- r) 0 0 Hd) as [-> Hr];
      [unfold in_range; lia | lia | f_equal; lia].
  - rewrite sub_with_borrow_dispatch by assumption.
    pose proof (sub_with_borrow_const_spec _ Hw a a 1 Ha Ha
                  (is_bit_in_range _ Hw _ H1)) as (Hd & _ & E).
    destruct (sub_with_borrow_const _ a a 1) as [d r]; cbn [diff borrow] in *.
    fold (modulus (bits tg t)).
    destruct (decomposition_unique _ d (- r) (modulus (bits tg t) - 1) (- 1) Hd)
      as [-> Hr]; [unfold in_range; lia | lia | f_equal; lia].
Qed.

Lemma sub_with_borrow_self_witness :
  sub_with_borrow (lp64 true) UInt 77 77 0 = {| diff := 0; borrow := 0 |} /\
  sub_with_borrow (lp64 true) UInt 77 77 1 =
    {| diff := 2 ^ 32 - 1; borrow := 1 |}.
Proof.
  refine (sub_with_borrow_self (lp64 true) UInt 77 _ _); concrete.
Defined.

End MathExtras.
